(** * 2.5D DC resistivity forward-simulation notebook

    A shallow embedding of the code cells of
    [exercises/01-forward-dc-resisitivity-2d-exercise.ipynb]: the sizing of
    the base mesh, the refinement and finalisation of the tree mesh, the
    active-cell injection maps and the apparent-resistivity cell.

    Numbers.  The notebook computes in binary64.  A finite binary64 value
    is a rational, so arrays of coordinates are lists over [Q].  What
    binary64 rounds (the quotient, the sum, [np.log], [np.mean]) is not
    recomputed here: those operations are the fields of an [arithmetic],
    over which the cells are parameterised, and a theorem says what it
    needs of them.  What is exact in binary64 ([np.round], [int],
    comparisons, [np.max]) is computed.  An array is a list, an (N, 2)
    array a list of pairs. *)

From Stdlib Require Import ZArith QArith Qround Qpower Qabs Qminmax.
From Stdlib Require Import Reals Qreals Lia Lqa Lra Psatz List.
From stdpp Require Import base list gmap strings.
Import ListNotations.

(** * binary64 values and the rounded operations *)
Module Float64.

Local Open Scope Q_scope.

(** A binary64 value: a rational, an infinity or nan.  The sign of a
    zero is not kept. *)
Inductive float64 : Type :=
| Fnum (q : Q)
| Finf (positive : bool)
| Fnan.

Coercion Fnum : Q >-> float64.

(** The operations whose results depend on rounding, on finite
    arguments:
    - [fdiv a b], the quotient [a / b] for [b] not zero;
    - [fadd a b], the sum;
    - [flog a], [np.log] of [a] for [a > 0];
    - [fmean a], [np.mean] of a non-empty array;
    - [origin_C (dh, n)] and [origin_N (dh, n)], where discretize puts
      the origin of an axis of [n] cells of width [dh] for the letters
      "C" (centred on zero) and "N" (ending at zero).
    Each may overflow to an infinity. *)
Record arithmetic : Type := mkArithmetic {
  fdiv : Q -> Q -> float64;
  fadd : Q -> Q -> float64;
  flog : Q -> float64;
  fmean : list Q -> float64;
  origin_C : Q * Q -> float64;
  origin_N : Q * Q -> float64
}.

Section Numpy.

Variable A : arithmetic.

(** [np.log]: [-inf] at zero, [nan] below zero. *)
Definition np_log (x : float64) : float64 :=
  match x with
  | Fnum q =>
      if Qlt_le_dec 0 q then flog A q
      else if Qeq_bool q 0 then Finf false else Fnan
  | Finf true => Finf true
  | Finf false => Fnan
  | Fnan => Fnan
  end.

(** [x / y] on numpy floats: never raises. *)
Definition np_divide (x y : float64) : float64 :=
  match x, y with
  | Fnan, _ | _, Fnan => Fnan
  | Fnum a, Fnum b =>
      if Qeq_bool b 0
      then (if Qeq_bool a 0 then Fnan else Finf (Qle_bool 0 a))
      else fdiv A a b
  | Fnum _, Finf _ => Fnum 0
  | Finf s, Fnum b => Finf (if Qle_bool 0 b then s else negb s)
  | Finf _, Finf _ => Fnan
  end.

(** [x + y] on numpy floats. *)
Definition np_add (x y : float64) : float64 :=
  match x, y with
  | Fnan, _ | _, Fnan => Fnan
  | Fnum a, Fnum b => fadd A a b
  | Fnum _, Finf s | Finf s, Fnum _ => Finf s
  | Finf s, Finf s' => if Bool.eqb s s' then Finf s else Fnan
  end.

(** [np.mean] of a one-dimensional array: [nan] (and a warning) on the
    empty array. *)
Definition np_mean (a : list Q) : float64 :=
  match a with
  | [] => Fnan
  | _ => fmean A a
  end.

End Numpy.

(** ** What is exact *)

(** The integer nearest to [q], the even one of the two when [q] lies
    half way. *)
Definition round_half_even (q : Q) : Z :=
  let f := Qfloor q in
  match Qcompare (q - inject_Z f) (1 # 2) with
  | Lt => f
  | Gt => (f + 1)%Z
  | Eq => if Z.even f then f else (f + 1)%Z
  end.

(** [np.round] *)
Definition np_round (x : float64) : float64 :=
  match x with
  | Fnum q => Fnum (inject_Z (round_half_even q))
  | _ => x
  end.

(** [int]: truncation; raises on an infinity and on nan. *)
Definition py_int (x : float64) : option Z :=
  match x with
  | Fnum q => Some (Qnum q ÷ Zpos (Qden q))%Z
  | _ => None
  end.

(** [2 ** k] for a Python integer [k]: an integer for [k >= 0], else the
    float [2.0 ** k], which is exact down to [2 ** -1074] and zero
    below. *)
Definition pow2 (k : Z) : Q :=
  if (-1074 <=? k)%Z then 2 ^ k else 0.

(** ** An arithmetic for small runs

    The quotient, the sum and the mean without rounding (as reduced
    fractions), the origins as discretize defines them, and [np.log] by a
    table of numpy's values (to sixteen digits) at the arguments the runs
    below use. *)
Definition sample_log (a : Q) : float64 :=
  if Qeq_bool a 2 then Fnum 0.6931471805599453
  else if Qeq_bool a 5 then Fnum 1.6094379124341003
  else if Qeq_bool a 128 then Fnum 4.852030263919617
  else if Qeq_bool a 256 then Fnum 5.545177444479562
  else Fnan.

Definition sample_arithmetic : arithmetic :=
  {| fdiv := fun a b => Fnum (Qred (a / b));
     fadd := fun a b => Fnum (Qred (a + b));
     flog := sample_log;
     fmean := fun a =>
       Fnum (Qred (fold_right Qplus 0 a / inject_Z (Z.of_nat (length a))));
     origin_C := fun h => Fnum (Qred (- (h.1 * h.2) / 2));
     origin_N := fun h => Fnum (Qred (- (h.1 * h.2))) |}.

End Float64.

(** * Base-mesh sizing

    {[
      nbcx = 2 ** int(np.round(np.log(dom_width_x / dh) / np.log(2.0)))
      nbcy = 2 ** int(np.round(np.log(dom_width_y / dh) / np.log(2.0)))
    ]} *)
Module MeshSizing.

Import Float64.
Local Open Scope Q_scope.

Section Sizing.

Variable A : arithmetic.

(** [np.log(dom_width / dh) / np.log(2.0)].  The first quotient is
    Python's and raises on a zero divisor. *)
Definition log2_quotient (dom_width dh : Q) : option float64 :=
  if Qeq_bool dh 0 then None
  else Some (np_divide A (np_log A (fdiv A dom_width dh)) (np_log A (Fnum 2))).

(** One axis of the sizing cell. *)
Definition nbc (dom_width dh : Q) : option Q :=
  x ← log2_quotient dom_width dh;
  k ← py_int (np_round x);
  Some (pow2 k).

Definition nbcx (dom_width_x dh : Q) : option Q := nbc dom_width_x dh.
Definition nbcy (dom_width_y dh : Q) : option Q := nbc dom_width_y dh.

End Sizing.

(** What the specification asks of the count [n] for cell width [dh] and
    domain width [w]: a power of two that covers the width, and the
    smallest such. *)
Definition smallest_pow2_cover (dh w n : Q) : Prop :=
  (exists k : Z, n == 2 ^ k) /\
  w <= dh * n /\
  (forall j : Z, w <= dh * 2 ^ j -> n <= 2 ^ j).

(** The binary logarithm of [w / dh] over the reals, against which the
    accuracy of the computed quotient is measured. *)
Definition log2_ratio (w dh : Q) : R :=
  (ln (Q2R w / Q2R dh) / ln 2)%R.

End MeshSizing.


(** * The tree mesh

    Step 3 of the notebook.  [TreeMesh] comes from the discretize library;
    the notebook sizes the base grid, moves the origin, calls two
    refinement methods with [finalize=False] and then [finalize]. *)
Module Mesh.

Import Float64 MeshSizing.
Local Open Scope Q_scope.

Abbreviation point := (Q * Q)%type.

(** One refinement request, as passed to the library. *)
Inductive refinement : Type :=
| ByPoints (points : list point) (padding_cells_by_level : list Z)
| BySurface (xyz : list point) (padding_cells_by_level : list Z).

(** The calls a mesh object has received, oldest first. *)
Inductive mesh_call : Type :=
| CallRefine (r : refinement) (finalize : bool)
| CallFinalize
| CallRead (attribute : string).

(** Modelled from the spec: the mesh library's object ("accept base-cell
    sizes per axis and origin, support point-based and surface-based
    refinement with per-level padding schedules applied before an
    irreversible finalize call"; after finalize "no further refinement is
    permitted and cell geometry is immutable").  The cells the library
    derives are a function of the base grid, the origin and the refinement
    requests, which is what the record keeps; [calls] is the history of
    the object. *)
Record TreeMesh : Type := mkTreeMesh {
  h : (Q * Q) * (Q * Q);          (* [(dh, nbcx)], [(dh, nbcy)] *)
  origin : float64 * float64;
  refinements : list refinement;
  finalized : bool;
  calls : list mesh_call
}.

(** What fixes the cell geometry. *)
Definition geometry (m : TreeMesh)
  : (Q * Q) * (Q * Q) * (float64 * float64) * list refinement :=
  (h m, origin m, refinements m).

Definition is_whole (q : Q) : bool := (Qden (Qred q) =? 1)%positive.

(** Modelled from the spec: [TreeMesh([hx, hy], origin="CN")], "construct
    a uniform base grid of that resolution", centred along x and with its
    top at zero along y.  The cell counts must be whole numbers; where
    the letters put the origin is the library's arithmetic. *)
Definition TreeMesh_CN (A : arithmetic) (hx hy : Q * Q) : option TreeMesh :=
  if is_whole hx.2 && is_whole hy.2 then
    Some {| h := (hx, hy);
            origin := (origin_C A hx, origin_N A hy);
            refinements := [];
            finalized := false;
            calls := [] |}
  else None.

(** [mesh.origin = ...] *)
Definition set_origin (o : float64 * float64) (m : TreeMesh) : TreeMesh :=
  {| h := h m; origin := o; refinements := refinements m;
     finalized := finalized m; calls := calls m |}.

(** Modelled from the spec: a refinement call of the mesh library.  It
    adds the request to the mesh, and finalizes it when asked to; after
    finalize "no further refinement is permitted", so the call is
    refused. *)
Definition refine (r : refinement) (finalize : bool) (m : TreeMesh)
  : option TreeMesh :=
  if finalized m then None
  else Some {| h := h m; origin := origin m;
               refinements := refinements m ++ [r];
               finalized := finalize;
               calls := calls m ++ [CallRefine r finalize] |}.

Definition refine_points (points : list point) (padding_cells_by_level : list Z)
    (finalize : bool) : TreeMesh -> option TreeMesh :=
  refine (ByPoints points padding_cells_by_level) finalize.

Definition refine_surface (xyz : list point) (padding_cells_by_level : list Z)
    (finalize : bool) : TreeMesh -> option TreeMesh :=
  refine (BySurface xyz padding_cells_by_level) finalize.

(** Modelled from the spec: [mesh.finalize()], the "irreversible finalize
    call"; it leaves the geometry as it is. *)
Definition finalize (m : TreeMesh) : TreeMesh :=
  {| h := h m; origin := origin m; refinements := refinements m;
     finalized := true; calls := calls m ++ [CallFinalize] |}.

(** Modelled from the spec: [mesh.plot_grid], [mesh.n_cells],
    [active_from_xyz(mesh, ...)] and the like, the uses that "expose cell
    count, origin, and cell-center coordinates after finalize"; they read
    the mesh. *)
Definition read (attribute : string) (m : TreeMesh) : TreeMesh :=
  {| h := h m; origin := origin m; refinements := refinements m;
     finalized := finalized m; calls := calls m ++ [CallRead attribute] |}.

(** ** numpy helpers of the mesh cells *)

(** [np.max]; raises on the empty array. *)
Definition np_max (a : list Q) : option Q :=
  match a with
  | [] => None
  | x :: a' => Some (fold_left Qmax a' x)
  end.

(** [a[mask, :]]: the rows of [a] at which the boolean mask holds.
    numpy raises when the mask and the array differ in length. *)
Fixpoint mask_rows {A : Type} (mask : list bool) (a : list A) : option (list A) :=
  match mask, a with
  | [], [] => Some []
  | b :: mask', r :: a' =>
      rest ← mask_rows mask' a';
      Some (if b then r :: rest else rest)
  | _, _ => None
  end.

(** [np.abs(x_topo) < 150.0] *)
Definition in_window (x : Q) : bool :=
  negb (Qle_bool 150 (Qabs x)).

(** ** The notebook's cells *)

(** {[
      nbcx = ...; nbcy = ...
      hx = [(dh, nbcx)]; hy = [(dh, nbcy)]
      mesh = TreeMesh([hx, hy], origin="CN")
      y_topo_max = np.max(topo_2d[:, -1])
      mesh.origin = mesh.origin + np.r_[np.mean(end_locations), y_topo_max]
    ]} *)
Definition base_mesh_cell (A : arithmetic) (dh dom_width_x dom_width_y : Q)
    (topo_2d : list point) (end_locations : list Q) : option TreeMesh :=
  nbcx ← nbcx A dom_width_x dh;
  nbcy ← nbcy A dom_width_y dh;
  let hx := (dh, nbcx) in
  let hy := (dh, nbcy) in
  mesh ← TreeMesh_CN A hx hy;
  y_topo_max ← np_max (snd <$> topo_2d);
  let x_mid := np_mean A end_locations in
  Some (set_origin (np_add A (origin mesh).1 x_mid,
                    np_add A (origin mesh).2 (Fnum y_topo_max)) mesh).

Definition points_padding : list Z := [10; 8; 8; 8; 4; 4]%Z.
Definition surface_padding : list Z := [0; 0; 4; 4]%Z.

(** {[
      mesh.refine_points(
          unique_locations, padding_cells_by_level=[10, 8, 8, 8, 4, 4], finalize=False)
      mesh.refine_surface(
          topo_2d[np.abs(x_topo) < 150.0, :],
          padding_cells_by_level=[0, 0, 4, 4], finalize=False)
    ]} *)
Definition refine_cell (unique_locations topo_2d : list point) (x_topo : list Q)
    (mesh : TreeMesh) : option TreeMesh :=
  mesh ← refine_points unique_locations points_padding false mesh;
  window ← mask_rows (in_window <$> x_topo) topo_2d;
  refine_surface window surface_padding false mesh.

(** {[ mesh.finalize() ]} *)
Definition finalize_cell (mesh : TreeMesh) : option TreeMesh :=
  Some (finalize mesh).

(** The later cells use the mesh without changing it: [mesh.plot_grid]
    (the plotting cell after finalize), the attributes the reader is asked
    to extract, [active_from_xyz(mesh, topo_2d)],
    [maps.InjectActiveCells(mesh, ...)], [mesh.plot_image],
    [survey.drape_electrodes_on_topography(mesh, ...)] and the simulation
    object. *)
Definition later_uses : list string :=
  ["plot_grid"; "n_cells"; "origin"; "cell_centers"; "active_from_xyz";
   "InjectActiveCells"; "plot_image"; "drape_electrodes_on_topography";
   "Simulation2DNodal"]%string.

Definition later_cells (mesh : TreeMesh) : TreeMesh :=
  fold_left (fun m a => read a m) later_uses mesh.

(** The cells of Step 3 and after, in notebook order. *)
Definition mesh_pipeline (A : arithmetic) (dh dom_width_x dom_width_y : Q)
    (topo_2d : list point) (x_topo : list Q) (end_locations : list Q)
    (unique_locations : list point) : option TreeMesh :=
  mesh ← base_mesh_cell A dh dom_width_x dom_width_y topo_2d end_locations;
  mesh ← refine_cell unique_locations topo_2d x_topo mesh;
  mesh ← finalize_cell mesh;
  Some (later_cells mesh).

(** ** The library calls as a transition system *)

Definition apply_call (c : mesh_call) (m : TreeMesh) : option TreeMesh :=
  match c with
  | CallRefine r f => refine r f m
  | CallFinalize => Some (finalize m)
  | CallRead a => Some (read a m)
  end.

Fixpoint run (cs : list mesh_call) (m : TreeMesh) : option TreeMesh :=
  match cs with
  | [] => Some m
  | c :: cs' => m' ← apply_call c m; run cs' m'
  end.

(** ** Properties of a call history *)

Definition schedule (r : refinement) : list Z :=
  match r with
  | ByPoints _ padding => padding
  | BySurface _ padding => padding
  end.

Definition is_refine (c : mesh_call) : bool :=
  match c with CallRefine _ _ => true | _ => false end.

(** A call finalizes when it is [finalize] itself or a refinement left at
    the library's [finalize=True]. *)
Definition finalizes (c : mesh_call) : bool :=
  match c with
  | CallFinalize => true
  | CallRefine _ f => f
  | CallRead _ => false
  end.

Definition finalize_count (cs : list mesh_call) : nat :=
  length (List.filter finalizes cs).

(** No refinement is called after a call that finalizes. *)
Fixpoint refine_before_finalize (cs : list mesh_call) : bool :=
  match cs with
  | [] => true
  | c :: cs' =>
      if finalizes c then forallb (fun c' => negb (is_refine c')) cs'
      else refine_before_finalize cs'
  end.

(** The padding schedule lists the finest level first. *)
Fixpoint non_increasing (l : list Z) : bool :=
  match l with
  | x :: (y :: _) as l' => (y <=? x)%Z && non_increasing l'
  | _ => true
  end.

Fixpoint non_decreasing (l : list Z) : bool :=
  match l with
  | x :: (y :: _) as l' => (x <=? y)%Z && non_decreasing l'
  | _ => true
  end.

Fixpoint strictly_decreasing (l : list Z) : bool :=
  match l with
  | x :: (y :: _) as l' => (y <? x)%Z && strictly_decreasing l'
  | _ => true
  end.

End Mesh.


(** * Maps from the model to the mesh

    Steps 5 and 6.  [maps.InjectActiveCells] and [maps.ExpMap] belong to
    SimPEG; the notebook builds [plotting_map] from the first and asks the
    reader to build the map of the simulation. *)
Module Maps.

Local Open Scope Q_scope.

(** An array entry: a number or [np.nan]. *)
Inductive float : Type :=
| Finite (q : Q)
| NaN.

Inductive IdentityMap : Type :=
| InjectActiveCells (nC : nat) (active_cells : list bool) (value_inactive : float)
| ExpMap
| ComboMap (outer inner : IdentityMap).      (* [outer * inner] *)

(** The number of parameters of an injection: the active cells. *)
Definition nP (active_cells : list bool) : nat :=
  length (List.filter (fun b : bool => b) active_cells).

(** Modelled from the spec: the injection "place active values into a
    full-mesh vector and fill remaining entries with a fixed
    air-resistivity constant"; a model vector of the wrong length is one
    of the "mismatched vector lengths" the library raises on. *)
Fixpoint inject (active_cells : list bool) (value_inactive : float)
    (m : list float) : option (list float) :=
  match active_cells with
  | [] => match m with [] => Some [] | _ :: _ => None end
  | true :: rest =>
      match m with
      | v :: m' => cons v <$> inject rest value_inactive m'
      | [] => None
      end
  | false :: rest => cons value_inactive <$> inject rest value_inactive m
  end.

Section Transform.

(** [np.exp] on numbers. *)
Variable np_exp : Q -> Q.

Definition exp (v : float) : float :=
  match v with
  | Finite q => Finite (np_exp q)
  | NaN => NaN
  end.

(** [M * m]: the map applied to a model vector.  In a product the inner
    map acts first. *)
Fixpoint transform (M : IdentityMap) (m : list float) : option (list float) :=
  match M with
  | InjectActiveCells nC active_cells value_inactive =>
      if decide (length active_cells = nC)
      then inject active_cells value_inactive m
      else None
  | ExpMap => Some (exp <$> m)
  | ComboMap outer inner => transform inner m ≫= transform outer
  end.

End Transform.

(** {[ plotting_map = maps.InjectActiveCells(mesh, active_cells, np.nan) ]} *)
Definition plotting_map (nC : nat) (active_cells : list bool) : IdentityMap :=
  InjectActiveCells nC active_cells NaN.

(** "set the value for the inactive cells to 1e8" *)
Definition air_resistivity : float := Finite 100000000.

(** Modelled from the spec: the map handed to the simulation, whose cell
    the notebook leaves blank.  "A composed Mapping then: (1) optionally
    exponentiates (log -> linear), (2) injects the active-cell vector into
    a full-mesh vector, filling inactive (air) cells with a fixed large
    constant"; the prompt gives [rho_map = active_map * exp_map]. *)
Definition resistivity_map (log_model : bool) (nC : nat)
    (active_cells : list bool) : IdentityMap :=
  let active_map := InjectActiveCells nC active_cells air_resistivity in
  if log_model then ComboMap active_map ExpMap else active_map.

(** [full[active_cells]]: the entries of a full-mesh vector at the active
    cells, in mesh order. *)
Fixpoint active_entries {A : Type} (active_cells : list bool) (full : list A)
  : list A :=
  match active_cells, full with
  | b :: rest, x :: full' =>
      if b then x :: active_entries rest full' else active_entries rest full'
  | _, _ => []
  end.

End Maps.


(** * Apparent resistivities

    The last code cell of the notebook.  It reads the globals
    [data_type], [survey] and [dpred], draws two pseudo-sections and
    leaves the result in [apparent_resistivity]. *)
Module PostProcessing.

Import Maps.
Local Open Scope Q_scope.
Local Open Scope string_scope.

Abbreviation point := (Q * Q)%type.

Record Receiver : Type := mkReceiver {
  locations_m : point;
  locations_n : point
}.

Record Source : Type := mkSource {
  location_a : point;
  location_b : point;
  receiver_list : list Receiver
}.

Record Survey : Type := mkSurvey {
  source_list : list Source
}.

(** [survey.nD] *)
Definition nD (s : Survey) : nat :=
  foldr (fun src n => (length (receiver_list src) + n)%nat) 0%nat (source_list s).

(** The objects the cell meets in the notebook's global namespace. *)
Inductive pyobj : Type :=
| PStr (s : string)
| PArray (a : list float)
| PSurvey (s : Survey)
| PFigure
| PAxes (title : string) (dobs : list float).

Abbreviation namespace := (gmap string pyobj).

(** Reading a global; an unbound name raises [NameError], an object of
    the wrong kind makes the library call fail. *)
Definition get_array (ns : namespace) (name : string) : option (list float) :=
  match ns !! name with Some (PArray a) => Some a | _ => None end.

Definition get_survey (ns : namespace) (name : string) : option Survey :=
  match ns !! name with Some (PSurvey s) => Some s | _ => None end.

(** [data_type == "volt"]; an object that is not a string compares
    unequal. *)
Definition is_volt (data_type : pyobj) : bool :=
  match data_type with
  | PStr s => String.eqb s "volt"
  | _ => false
  end.

(** [np.abs] *)
Definition np_abs (v : float) : float :=
  match v with
  | Finite q => Finite (Qabs q)
  | NaN => NaN
  end.

Section Cell.

(** SimPEG's utility: apparent resistivities from normalized voltages and
    the geometry of the survey.  It may reject its arguments. *)
Variable apparent_resistivity_from_voltage :
  Survey -> list float -> option (list float).

(** SimPEG's plotting routine: it draws the data at the pseudo-locations
    of the survey, or rejects its arguments. *)
Variable plot_pseudosection : Survey -> list float -> option unit.

(** {[
      fig = plt.figure(figsize=(8, 2.75))
      ax1 = fig.add_axes([0.1, 0.15, 0.75, 0.78])
      plot_pseudosection(survey, dobs=..., ax=ax1, ...)
      ax1.set_title(...)
      plt.show()
    ]} *)
Definition pseudosection (title : string) (dobs_name : string)
    (f : float -> float) (ns : namespace) : option namespace :=
  let ns := <["fig" := PFigure]> ns in
  let ns := <["ax1" := PAxes "" []]> ns in
  survey ← get_survey ns "survey";
  dobs ← get_array ns dobs_name;
  _ ← plot_pseudosection survey (f <$> dobs);
  Some (<["ax1" := PAxes title (f <$> dobs)]> ns).

(** {[
      if data_type == "volt":
          ... plot_pseudosection(survey, dobs=np.abs(dpred), ...)
          apparent_resistivity = apparent_resistivity_from_voltage(survey, dpred)
      else:
          apparent_resistivity = dpred.copy()
      ... plot_pseudosection(survey, dobs=apparent_resistivity, ...)
    ]} *)
Definition postprocess_cell (ns : namespace) : option namespace :=
  data_type ← ns !! "data_type";
  ns ← (if is_volt data_type then
          ns ← pseudosection "Normalized Voltages" "dpred" np_abs ns;
          survey ← get_survey ns "survey";
          dpred ← get_array ns "dpred";
          rho ← apparent_resistivity_from_voltage survey dpred;
          Some (<["apparent_resistivity" := PArray rho]> ns)
        else
          dpred ← get_array ns "dpred";
          Some (<["apparent_resistivity" := PArray dpred]> ns));
  pseudosection "Apparent Resistivity" "apparent_resistivity" (fun v => v) ns.

(** The vector the cell leaves in [apparent_resistivity]. *)
Definition apparent_resistivity (ns : namespace) : option (list float) :=
  ns' ← postprocess_cell ns;
  get_array ns' "apparent_resistivity".

(** The same computation with its three inputs as arguments. *)
Definition postprocess (data_type : pyobj) (survey : Survey)
    (dpred : list float) : option (list float) :=
  if is_volt data_type then
    _ ← plot_pseudosection survey (np_abs <$> dpred);
    rho ← apparent_resistivity_from_voltage survey dpred;
    _ ← plot_pseudosection survey rho;
    Some rho
  else
    _ ← plot_pseudosection survey dpred;
    Some dpred.

End Cell.

(** ** Small runs

    The utility for a survey whose geometric factors are all one (SimPEG
    takes the absolute value of the quotient), a plotting routine that
    takes data with one entry per datum of the survey, and a namespace
    whose data do not match its survey. *)
Definition unit_geometry (_ : Survey) (volts : list float)
  : option (list float) :=
  Some (np_abs <$> volts).

Definition plot_per_datum (s : Survey) (dobs : list float) : option unit :=
  if (length dobs =? nD s)%nat then Some tt else None.

Definition sample_namespace : namespace :=
  {[ "data_type" := PStr "volt";
     "survey" := PSurvey (mkSurvey []);
     "dpred" := PArray [Finite (-2); NaN] ]}.

(** ** A run on a survey of three data

    Two sources along a line, the first with two receivers and the second
    with one, three positive voltages, and the same namespace later in
    the session, when more globals are bound. *)
Definition small_survey : Survey :=
  mkSurvey
    [mkSource (-10, 0) (-5, 0)
       [mkReceiver (0, 0) (5, 0); mkReceiver (5, 0) (10, 0)];
     mkSource (-5, 0) (0, 0) [mkReceiver (5, 0) (10, 0)]].

Definition small_namespace : namespace :=
  {[ "data_type" := PStr "volt";
     "survey" := PSurvey small_survey;
     "dpred" := PArray [Finite (1 # 2); Finite (1 # 4); Finite (1 # 2)] ]}.

Definition small_namespace_later : namespace :=
  <["write_output" := PStr "True"]>
    (<["apparent_resistivity" := PArray [Finite 7]]> small_namespace).

(** The same survey with data that are apparent resistivities already. *)
Definition small_namespace_resistivity : namespace :=
  <["data_type" := PStr "apparent_resistivity"]> small_namespace.

End PostProcessing.

(** * Facts about the base-mesh sizing *)
Section MeshSizingFacts.

Import Float64 MeshSizing.
Local Open Scope Q_scope.

Lemma two_pow_pos (k : Z) : 0 < 2 ^ k.
Proof. apply Qpower_0_lt. reflexivity. Qed.


(** ** Rounding *)

(** [np.round] moves a value by one half at most. *)
Lemma round_half_even_near (q : Q) :
  inject_Z (round_half_even q) - (1 # 2) <= q /\
  q <= inject_Z (round_half_even q) + (1 # 2).
Proof.
  unfold round_half_even.
  pose proof (Qfloor_le q) as Hlo.
  pose proof (Qlt_floor q) as Hhi.
  rewrite inject_Z_plus in Hhi. change (inject_Z 1) with 1 in Hhi.
  set (f := Qfloor q) in *.
  destruct (Qcompare (q - inject_Z f) (1 # 2)) eqn:Hc.
  - apply Qeq_alt in Hc.
    destruct (Z.even f); [| rewrite inject_Z_plus; change (inject_Z 1) with 1];
      split; lra.
  - apply Qlt_alt in Hc. split; lra.
  - apply Qgt_alt in Hc.
    rewrite inject_Z_plus. change (inject_Z 1) with 1. split; lra.
Qed.

(** A value less than one half away from an integer rounds to it. *)
Lemma round_half_even_unique (q : Q) (j : Z) :
  inject_Z j - (1 # 2) < q -> q < inject_Z j + (1 # 2) ->
  round_half_even q = j.
Proof.
  intros Hlo Hhi.
  destruct (round_half_even_near q) as [Hk1 Hk2].
  set (k := round_half_even q) in *.
  assert (H1 : inject_Z k < inject_Z (j + 1)).
  { rewrite inject_Z_plus. change (inject_Z 1) with 1. lra. }
  assert (H2 : inject_Z j < inject_Z (k + 1)).
  { rewrite inject_Z_plus. change (inject_Z 1) with 1. lra. }
  rewrite <- Zlt_Qlt in H1, H2. lia.
Qed.

Lemma py_int_np_round (x : Q) :
  py_int (np_round (Fnum x)) = Some (round_half_even x).
Proof. cbn. rewrite Z.quot_1_r. reflexivity. Qed.

Lemma nbc_value (A : arithmetic) (w dh x : Q) :
  log2_quotient A w dh = Some (Fnum x) ->
  nbc A w dh = Some (pow2 (round_half_even x)).
Proof.
  intros Hx. unfold nbc. rewrite Hx. cbn [mbind option_bind].
  rewrite py_int_np_round. reflexivity.
Qed.

(** The quotient of the logarithms, step by step, when every step is
    finite: the quotient [q] of the two lengths, its logarithm [l], the
    logarithm [l2] of two, and their quotient [x]. *)
Lemma log2_quotient_steps (A : arithmetic) (w dh q l l2 x : Q) :
  ~ dh == 0 ->
  fdiv A w dh = Fnum q -> 0 < q ->
  flog A q = Fnum l -> flog A 2 = Fnum l2 -> ~ l2 == 0 ->
  fdiv A l l2 = Fnum x ->
  log2_quotient A w dh = Some (Fnum x).
Proof.
  intros Hdh Hq Hqpos Hl Hl2 Hl2nz Hx. unfold log2_quotient.
  destruct (Qeq_bool dh 0) eqn:E; [apply Qeq_bool_iff in E; contradiction |].
  f_equal. rewrite Hq. unfold np_log.
  destruct (Qlt_le_dec 0 q) as [_ | Hc]; [| exfalso; exact (Qlt_not_le _ _ Hqpos Hc)].
  destruct (Qlt_le_dec 0 2) as [_ | Hc]; [| exfalso; revert Hc; unfold Qle; cbn; lia].
  rewrite Hl, Hl2. unfold np_divide.
  destruct (Qeq_bool l2 0) eqn:E2; [apply Qeq_bool_iff in E2; contradiction |].
  exact Hx.
Qed.


(** ** The binary logarithm over the reals *)

Lemma ln_2_pos : (0 < ln 2)%R.
Proof. pose proof ln_lt_2. lra. Qed.






(** The binary logarithm of five lies between 9/4 and 12/5, since
    [2^9 < 5^4] and [5^5 < 2^12]. *)
Lemma log2_ratio_five : (9 / 4 < log2_ratio 5 1 < 12 / 5)%R.
Proof.
  unfold log2_ratio. pose proof ln_2_pos as H2.
  replace (Q2R 5 / Q2R 1)%R with 5%R by (unfold Q2R; cbn; field).
  assert (Hlo : (9 * ln 2 < 4 * ln 5)%R).
  { replace (9 * ln 2)%R with (ln (2 ^ 9))
      by (rewrite ln_pow by lra; simpl; lra).
    replace (4 * ln 5)%R with (ln (5 ^ 4))
      by (rewrite ln_pow by lra; simpl; lra).
    apply ln_increasing; lra. }
  assert (Hhi : (5 * ln 5 < 12 * ln 2)%R).
  { replace (5 * ln 5)%R with (ln (5 ^ 5))
      by (rewrite ln_pow by lra; simpl; lra).
    replace (12 * ln 2)%R with (ln (2 ^ 12))
      by (rewrite ln_pow by lra; simpl; lra).
    apply ln_increasing; lra. }
  assert (E : (ln 5 = ln 5 / ln 2 * ln 2)%R) by (field; lra).
  rewrite E in Hlo, Hhi. split; nra.
Qed.

(** ** The count *)






(** Four cells for a width of five do not depend on how the arithmetic
    rounds: whenever the steps of the line are finite and the computed
    quotient of the logarithms is within one tenth of the binary logarithm
    of five, it rounds to 2, the line yields 4 cells of width 1, and they
    do not span the width. *)
Theorem nbc_five_unit_cells (A : arithmetic) (q l l2 x : Q) :
  fdiv A 5 1 = Fnum q -> 0 < q ->
  flog A q = Fnum l -> flog A 2 = Fnum l2 -> ~ l2 == 0 ->
  fdiv A l l2 = Fnum x ->
  (Rabs (Q2R x - log2_ratio 5 1) <= 1 / 10)%R ->
  nbc A 5 1 = Some 4 /\ ~ smallest_pow2_cover 1 5 4.
Proof.
  intros Hq Hqpos Hl Hl2 Hl2nz Hxq Hacc.
  assert (Hdh : ~ 1 == 0) by discriminate.
  pose proof (log2_quotient_steps A 5 1 q l l2 x Hdh Hq Hqpos Hl Hl2 Hl2nz Hxq)
    as Hx.
  destruct log2_ratio_five as [Hlo Hhi].
  assert (Hx1 : (- (1 / 10) <= Q2R x - log2_ratio 5 1 <= 1 / 10)%R).
  { unfold Rabs in Hacc. destruct (Rcase_abs (Q2R x - log2_ratio 5 1)); lra. }
  assert (Hr : round_half_even x = 2%Z).
  { apply round_half_even_unique; apply Rlt_Qlt.
    - rewrite Q2R_minus.
      replace (Q2R (inject_Z 2)) with 2%R by (unfold Q2R; cbn; lra).
      replace (Q2R (1 # 2)) with (1 / 2)%R by (unfold Q2R; cbn; lra). lra.
    - rewrite Q2R_plus.
      replace (Q2R (inject_Z 2)) with 2%R by (unfold Q2R; cbn; lra).
      replace (Q2R (1 # 2)) with (1 / 2)%R by (unfold Q2R; cbn; lra). lra. }
  split.
  - rewrite (nbc_value A 5 1 x Hx), Hr. reflexivity.
  - intros (_ & Hcover & _). revert Hcover. unfold Qle. cbn. lia.
Qed.

Lemma nbc_five_unit_cells_witness :
  nbc sample_arithmetic 5 1 = Some 4 /\ ~ smallest_pow2_cover 1 5 4.
Proof.
  apply (nbc_five_unit_cells sample_arithmetic 5
           1.6094379124341003 0.6931471805599453
           (Qred (1.6094379124341003 / 0.6931471805599453)));
    try reflexivity; [discriminate |].
  pose proof log2_ratio_five as [Hlo Hhi].
  assert (Hxlo : (23 # 10) <= Qred (1.6094379124341003 / 0.6931471805599453))
    by (unfold Qle; vm_compute; discriminate).
  assert (Hxhi : Qred (1.6094379124341003 / 0.6931471805599453) <= (47 # 20))
    by (unfold Qle; vm_compute; discriminate).
  apply Qle_Rle in Hxlo, Hxhi.
  replace (Q2R (23 # 10)) with (23 / 10)%R in Hxlo by (unfold Q2R; cbn; lra).
  replace (Q2R (47 # 20)) with (47 / 20)%R in Hxhi by (unfold Q2R; cbn; lra).
  apply Rabs_le. lra.
Defined.

End MeshSizingFacts.


(** * Facts about the mesh cells *)
Section MeshFacts.

Import Float64 Mesh.
Local Open Scope Q_scope.

(** ** The window of the surface refinement *)

Lemma in_window_spec (x : Q) : in_window x = true <-> -150 < x /\ x < 150.
Proof.
  unfold in_window. rewrite negb_true_iff.
  split.
  - intros H.
    assert (Hlt : Qabs x < 150).
    { apply Qnot_le_lt. intros Hc. apply Qle_bool_iff in Hc. congruence. }
    apply Qabs_Qlt_condition in Hlt. exact Hlt.
  - intros H'.
    assert (H : Qabs x < 150) by (apply Qabs_Qlt_condition; exact H').
    destruct (Qle_bool 150 (Qabs x)) eqn:E; [| reflexivity].
    apply Qle_bool_iff in E. exfalso. exact (Qlt_not_le _ _ H E).
Qed.

Lemma mask_rows_filter {A B : Type} (f : B -> bool) (g : A -> B) (a : list A) :
  mask_rows (f <$> (g <$> a)) a = Some (List.filter (fun r => f (g r)) a).
Proof.
  induction a as [| r a IH]; [reflexivity |].
  cbn. rewrite IH. cbn. destruct (f (g r)); reflexivity.
Qed.

Lemma mask_rows_length {A : Type} (mask : list bool) (a w : list A) :
  mask_rows mask a = Some w -> length mask = length a.
Proof.
  revert a w. induction mask as [| b mask IH]; intros [| r a] w H;
    cbn in H; try discriminate; [reflexivity |].
  destruct (mask_rows mask a) as [rest |] eqn:E; [| discriminate].
  cbn. f_equal. exact (IH _ _ E).
Qed.

(** ** The library's transition system *)

Lemma refine_unfinalized (r : refinement) (f : bool) (m m' : TreeMesh) :
  refine r f m = Some m' ->
  finalized m = false /\
  refinements m' = refinements m ++ [r] /\
  calls m' = calls m ++ [CallRefine r f] /\
  h m' = h m /\ origin m' = origin m /\ finalized m' = f.
Proof.
  unfold refine. destruct (finalized m); [discriminate |].
  intros H. inversion H; subst m'. cbn. auto 10.
Qed.

Lemma read_geometry (a : string) (m : TreeMesh) :
  geometry (read a m) = geometry m /\ finalized (read a m) = finalized m.
Proof. split; reflexivity. Qed.

(** Once finalized, a mesh accepts no refinement and keeps its geometry
    through every run of calls that succeeds. *)
Lemma finalized_frozen (cs : list mesh_call) :
  forall m m' : TreeMesh,
    finalized m = true ->
    run cs m = Some m' ->
    geometry m' = geometry m /\ finalized m' = true /\
    Forall (fun c => is_refine c = false) cs.
Proof.
  induction cs as [| c cs IH]; intros m m' Hf Hrun; cbn in Hrun.
  - inversion Hrun; subst m'. auto.
  - destruct (apply_call c m) as [m1 |] eqn:Hc; [| discriminate].
    cbn in Hrun.
    assert (H1 : geometry m1 = geometry m /\ finalized m1 = true /\ is_refine c = false).
    { destruct c as [r f | | a]; cbn in Hc.
      - unfold refine in Hc. rewrite Hf in Hc. discriminate.
      - inversion Hc; subst m1. auto.
      - inversion Hc; subst m1. cbn. auto. }
    destruct H1 as (Hg1 & Hf1 & Hr).
    destruct (IH m1 m' Hf1 Hrun) as (Hg & Hf' & Hall).
    split; [congruence |]. split; [exact Hf' |].
    constructor; assumption.
Qed.

Lemma later_reads_spec (uses : list string) (m : TreeMesh) :
  geometry (fold_left (fun m a => read a m) uses m) = geometry m /\
  finalized (fold_left (fun m a => read a m) uses m) = finalized m /\
  calls (fold_left (fun m a => read a m) uses m) = calls m ++ (CallRead <$> uses).
Proof.
  revert m. induction uses as [| a uses IH]; intros m; cbn.
  - rewrite app_nil_r. auto.
  - destruct (IH (read a m)) as (Hg & Hf & Hc).
    rewrite Hg, Hf, Hc. cbn. rewrite <- app_assoc. auto.
Qed.

(** The later cells are a run of reads. *)
Lemma later_cells_run (m : TreeMesh) :
  run (CallRead <$> later_uses) m = Some (later_cells m).
Proof.
  unfold later_cells. generalize later_uses as uses. intros uses.
  revert m. induction uses as [| a uses IH]; intros m; [reflexivity |].
  cbn. apply IH.
Qed.

Lemma base_mesh_fresh (A : arithmetic) (dh wx wy : Q) (topo_2d : list point)
    (end_locations : list Q) (m : TreeMesh) :
  base_mesh_cell A dh wx wy topo_2d end_locations = Some m ->
  finalized m = false /\ refinements m = [] /\ calls m = [].
Proof.
  unfold base_mesh_cell. intros H.
  apply bind_Some in H as (nx & _ & H).
  apply bind_Some in H as (ny & _ & H).
  apply bind_Some in H as (m0 & Hm0 & H).
  apply bind_Some in H as (ymax & _ & H).
  unfold TreeMesh_CN in Hm0.
  destruct (is_whole _ && is_whole _); [| discriminate].
  inversion Hm0; subst m0. inversion H; subst m. cbn. auto.
Qed.

Lemma refine_cell_spec (unique_locations topo_2d : list point) (x_topo : list Q)
    (mesh mesh' : TreeMesh) :
  refine_cell unique_locations topo_2d x_topo mesh = Some mesh' ->
  exists window : list point,
    mask_rows (in_window <$> x_topo) topo_2d = Some window /\
    finalized mesh = false /\ finalized mesh' = false /\
    h mesh' = h mesh /\ origin mesh' = origin mesh /\
    refinements mesh' =
      refinements mesh ++ [ByPoints unique_locations points_padding;
                           BySurface window surface_padding] /\
    calls mesh' =
      calls mesh ++ [CallRefine (ByPoints unique_locations points_padding) false;
                     CallRefine (BySurface window surface_padding) false].
Proof.
  unfold refine_cell, refine_points, refine_surface. intros H.
  apply bind_Some in H as (m1 & H1 & H).
  apply bind_Some in H as (window & Hw & H).
  apply refine_unfinalized in H1. destruct H1 as (Hf & Hr1 & Hc1 & Hh1 & Ho1 & Hf1).
  apply refine_unfinalized in H. destruct H as (_ & Hr2 & Hc2 & Hh2 & Ho2 & Hf2).
  exists window. split; [exact Hw |].
  split; [exact Hf |]. split; [exact Hf2 |].
  split; [congruence |]. split; [congruence |].
  split.
  - rewrite Hr2, Hr1, <- app_assoc. reflexivity.
  - rewrite Hc2, Hc1, <- app_assoc. reflexivity.
Qed.

(** ** Refinement schedules *)

(** C2, as the code has it: the electrode pass pads by [10, 8, 8, 8, 4, 4],
    which never increases from the finest level onward and is not strictly
    decreasing; the surface pass pads by [0, 0, 4, 4], which never
    decreases from the finest level onward; and the surface pass receives
    the rows of the topography selected by [|x_topo| < 150], which are the
    samples with [-150 < x < 150] when [x_topo] is the first column of
    [topo_2d]. *)
Theorem refinement_schedules (unique_locations topo_2d : list point)
    (x_topo : list Q) (mesh mesh' : TreeMesh) :
  refine_cell unique_locations topo_2d x_topo mesh = Some mesh' ->
  exists window : list point,
    refinements mesh' =
      refinements mesh ++ [ByPoints unique_locations [10; 8; 8; 8; 4; 4]%Z;
                           BySurface window [0; 0; 4; 4]%Z] /\
    non_increasing [10; 8; 8; 8; 4; 4]%Z = true /\
    strictly_decreasing [10; 8; 8; 8; 4; 4]%Z = false /\
    non_decreasing [0; 0; 4; 4]%Z = true /\
    non_increasing [0; 0; 4; 4]%Z = false /\
    mask_rows (in_window <$> x_topo) topo_2d = Some window /\
    (x_topo = topo_2d.*1 ->
     window = List.filter (fun p => in_window p.1) topo_2d /\
     forall p : point, p ∈ window <-> p ∈ topo_2d /\ -150 < p.1 /\ p.1 < 150).
Proof.
  intros H.
  destruct (refine_cell_spec _ _ _ _ _ H) as (window & Hw & _ & _ & _ & _ & Hr & _).
  exists window.
  split; [exact Hr |].
  do 4 (split; [reflexivity |]).
  split; [exact Hw |].
  intros ->.
  rewrite mask_rows_filter in Hw. inversion Hw as [Hwin].
  split; [reflexivity |].
  intros p. rewrite !list_elem_of_In, filter_In, in_window_spec. reflexivity.
Qed.

Lemma refinement_schedules_witness :
  exists (mesh' : TreeMesh) (window : list point),
    refinements mesh' =
      [ByPoints [(-65, 0); (65, 0)] [10; 8; 8; 8; 4; 4]%Z;
       BySurface window [0; 0; 4; 4]%Z] /\
    non_increasing [10; 8; 8; 8; 4; 4]%Z = true /\
    strictly_decreasing [10; 8; 8; 8; 4; 4]%Z = false /\
    non_decreasing [0; 0; 4; 4]%Z = true /\
    non_increasing [0; 0; 4; 4]%Z = false /\
    mask_rows (in_window <$> [-200; 0; 200]) [(-200, 0); (0, 4); (200, 8)]
      = Some window /\
    ([-200; 0; 200] = [(-200, 0); (0, 4); (200, 8)].*1 ->
     window = List.filter (fun p => in_window p.1) [(-200, 0); (0, 4); (200, 8)] /\
     forall p : point,
       p ∈ window <->
       p ∈ [(-200, 0); (0, 4); (200, 8)] /\ -150 < p.1 /\ p.1 < 150).
Proof.
  eexists.
  apply (refinement_schedules [(-65, 0); (65, 0)] [(-200, 0); (0, 4); (200, 8)]
           [-200; 0; 200]
           {| h := ((1, 256), (1, 128)); origin := (Fnum (-128), Fnum (-120));
              refinements := []; finalized := false; calls := [] |}).
  reflexivity.
Defined.

(** C2, as the specification words it, fails on the surface pass: its
    schedule goes from 0 at the second finest level to 4 at the third.
    Reading the schedules from the coarsest level instead does not help:
    the two run in opposite directions, and then the electrode schedule
    is the one that rises. *)
Lemma surface_schedule_not_decreasing :
  exists (mesh' : TreeMesh) (r : refinement),
    refine_cell [(-65, 0); (65, 0)] [(-200, 0); (0, 4); (200, 8)] [-200; 0; 200]
      {| h := ((1, 256), (1, 128)); origin := (Fnum (-128), Fnum (-120));
         refinements := []; finalized := false; calls := [] |}
    = Some mesh' /\
    r ∈ refinements mesh' /\
    schedule r = [0; 0; 4; 4]%Z /\
    non_increasing (schedule r) = false /\
    non_increasing (rev points_padding) = false.
Proof.
  eexists. eexists. split; [reflexivity |].
  split; [cbn; apply list_elem_of_further, list_elem_of_here |].
  repeat split; reflexivity.
Qed.

(** ** Lifecycle *)

Lemma refine_before_finalize_spec (cs : list mesh_call) :
  refine_before_finalize cs = true ->
  forall (pre : list mesh_call) (c : mesh_call) (post : list mesh_call),
    cs = pre ++ c :: post -> finalizes c = true ->
    Forall (fun c' => is_refine c' = false) post.
Proof.
  induction cs as [| c0 cs IH]; intros Hb pre c post Heq Hfin.
  - destruct pre; discriminate.
  - cbn in Hb. destruct pre as [| p pre]; cbn in Heq; inversion Heq; subst.
    + rewrite Hfin in Hb.
      apply Forall_forall. intros c' Hc'.
      rewrite forallb_forall in Hb.
      apply negb_true_iff. apply Hb. apply list_elem_of_In. exact Hc'.
    + destruct (finalizes p).
      * rewrite forallb_forall in Hb.
        apply Forall_forall. intros c' Hc'.
        apply negb_true_iff. apply Hb.
        apply in_or_app. right. right. apply list_elem_of_In. exact Hc'.
      * exact (IH Hb pre c post eq_refl Hfin).
Qed.

(** C3: in a run of the mesh cells the object receives the two refinement
    calls, then [finalize], then only reads.  So exactly one call
    finalizes, no refinement follows it, and from [finalize] on the
    geometry of the mesh is the one it had at [finalize], after each of
    the later cells. *)
Theorem mesh_lifecycle (A : arithmetic) (dh dom_width_x dom_width_y : Q)
    (topo_2d : list point) (x_topo end_locations : list Q)
    (unique_locations : list point) (m : TreeMesh) :
  mesh_pipeline A dh dom_width_x dom_width_y topo_2d x_topo end_locations
    unique_locations = Some m ->
  exists (refined : TreeMesh) (window : list point),
    m = later_cells (finalize refined) /\
    finalized refined = false /\
    calls m =
      [CallRefine (ByPoints unique_locations points_padding) false;
       CallRefine (BySurface window surface_padding) false;
       CallFinalize] ++ (CallRead <$> later_uses) /\
    finalize_count (calls m) = 1%nat /\
    refine_before_finalize (calls m) = true /\
    (forall (pre : list mesh_call) (c : mesh_call) (post : list mesh_call),
       calls m = pre ++ c :: post -> finalizes c = true ->
       Forall (fun c' => is_refine c' = false) post) /\
    finalized m = true /\
    (forall k : nat,
       geometry (fold_left (fun m a => read a m) (take k later_uses)
                   (finalize refined))
       = geometry (finalize refined)) /\
    geometry m = geometry (finalize refined).
Proof.
  unfold mesh_pipeline. intros H.
  apply bind_Some in H as (base & Hbase & H).
  apply bind_Some in H as (refined & Href & H).
  apply bind_Some in H as (frozen & Hfrozen & H).
  unfold finalize_cell in Hfrozen.
  inversion Hfrozen; subst frozen. inversion H; subst m. clear H Hfrozen.
  destruct (base_mesh_fresh _ _ _ _ _ _ _ Hbase) as (_ & _ & Hcalls0).
  destruct (refine_cell_spec _ _ _ _ _ Href)
    as (window & _ & _ & Hunf & _ & _ & _ & Hcalls).
  rewrite Hcalls0 in Hcalls. cbn [app] in Hcalls.
  exists refined, window.
  assert (Hhist : calls (later_cells (finalize refined)) =
            [CallRefine (ByPoints unique_locations points_padding) false;
             CallRefine (BySurface window surface_padding) false;
             CallFinalize] ++ (CallRead <$> later_uses)).
  { unfold later_cells.
    destruct (later_reads_spec later_uses (finalize refined)) as (_ & _ & Hc).
    rewrite Hc. cbn [calls finalize]. rewrite Hcalls. reflexivity. }
  assert (Hord : refine_before_finalize (calls (later_cells (finalize refined)))
                 = true).
  { rewrite Hhist. reflexivity. }
  split; [reflexivity |].
  split; [exact Hunf |].
  split; [exact Hhist |].
  split; [rewrite Hhist; reflexivity |].
  split; [exact Hord |].
  split; [exact (refine_before_finalize_spec _ Hord) |].
  split.
  { unfold later_cells.
    destruct (later_reads_spec later_uses (finalize refined)) as (_ & Hf & _).
    rewrite Hf. reflexivity. }
  split.
  { intros k.
    destruct (later_reads_spec (take k later_uses) (finalize refined))
      as (Hg & _ & _).
    exact Hg. }
  unfold later_cells.
  destruct (later_reads_spec later_uses (finalize refined)) as (Hg & _ & _).
  exact Hg.
Qed.

Lemma mesh_lifecycle_witness :
  exists (m refined : TreeMesh) (window : list point),
    m = later_cells (finalize refined) /\
    finalized refined = false /\
    calls m =
      [CallRefine (ByPoints [(-65, 0); (65, 8)] points_padding) false;
       CallRefine (BySurface window surface_padding) false;
       CallFinalize] ++ (CallRead <$> later_uses) /\
    finalize_count (calls m) = 1%nat /\
    refine_before_finalize (calls m) = true /\
    (forall (pre : list mesh_call) (c : mesh_call) (post : list mesh_call),
       calls m = pre ++ c :: post -> finalizes c = true ->
       Forall (fun c' => is_refine c' = false) post) /\
    finalized m = true /\
    (forall k : nat,
       geometry (fold_left (fun m a => read a m) (take k later_uses)
                   (finalize refined))
       = geometry (finalize refined)) /\
    geometry m = geometry (finalize refined).
Proof.
  eexists.
  apply (mesh_lifecycle sample_arithmetic 1 256 128
           [(-200, 0); (0, 4); (200, 8)]
           [-200; 0; 200] [-65; 65] [(-65, 0); (65, 8)]).
  vm_compute. reflexivity.
Defined.

End MeshFacts.


(** * Facts about the maps *)
Section MapsFacts.

Import Maps.

Variable np_exp : Q -> Q.

Lemma inject_length (active_cells : list bool) (v : float) :
  forall m full : list float,
    inject active_cells v m = Some full ->
    length full = length active_cells /\ length m = nP active_cells.
Proof.
  induction active_cells as [| b rest IH]; intros m full H.
  - destruct m; [| discriminate]. inversion H. auto.
  - destruct b; cbn in H.
    + destruct m as [| x m']; [discriminate |].
      apply fmap_Some in H as (full' & H' & ->).
      destruct (IH _ _ H') as [Hl Hm]. cbn. unfold nP in *. cbn. auto.
    + apply fmap_Some in H as (full' & H' & ->).
      destruct (IH _ _ H') as [Hl Hm]. cbn. unfold nP in *. cbn. auto.
Qed.

Lemma inject_total (active_cells : list bool) (v : float) :
  forall m : list float,
    length m = nP active_cells ->
    exists full, inject active_cells v m = Some full.
Proof.
  induction active_cells as [| b rest IH]; intros m Hm.
  - destruct m; [| discriminate]. exists []. reflexivity.
  - destruct b; cbn.
    + destruct m as [| x m']; [discriminate |].
      destruct (IH m') as [full' H']; [unfold nP in *; cbn in Hm; lia |].
      rewrite H'. eexists. reflexivity.
    + destruct (IH m) as [full' H']; [exact Hm |].
      rewrite H'. eexists. reflexivity.
Qed.

(** The active entries of the injected vector are the model, in order. *)
Lemma inject_active_entries (active_cells : list bool) (v : float) :
  forall m full : list float,
    inject active_cells v m = Some full ->
    active_entries active_cells full = m.
Proof.
  induction active_cells as [| b rest IH]; intros m full H.
  - destruct m; [| discriminate]. inversion H. reflexivity.
  - destruct b; cbn in H.
    + destruct m as [| x m']; [discriminate |].
      apply fmap_Some in H as (full' & H' & ->).
      cbn. f_equal. exact (IH _ _ H').
    + apply fmap_Some in H as (full' & H' & ->).
      cbn. exact (IH _ _ H').
Qed.

(** Cell by cell: an inactive cell holds the fill value; an active cell
    holds the model entry whose index is the number of active cells
    before it. *)
Lemma inject_lookup (active_cells : list bool) (v : float) :
  forall (m full : list float) (i : nat),
    inject active_cells v m = Some full ->
    (active_cells !! i = Some false -> full !! i = Some v) /\
    (active_cells !! i = Some true ->
     full !! i = m !! nP (take i active_cells) /\ is_Some (full !! i)).
Proof.
  induction active_cells as [| b rest IH]; intros m full i H.
  - split; intros Hi; discriminate.
  - destruct b; cbn in H.
    + destruct m as [| x m']; [discriminate |].
      apply fmap_Some in H as (full' & H' & ->).
      destruct i as [| i]; cbn.
      * split; [discriminate |]. intros _. split; [reflexivity | eauto].
      * destruct (IH _ _ i H') as [Hf Ht]. split; [exact Hf |].
        intros Hi. exact (Ht Hi).
    + apply fmap_Some in H as (full' & H' & ->).
      destruct i as [| i]; cbn.
      * split; [reflexivity | discriminate].
      * destruct (IH _ _ i H') as [Hf Ht]. split; [exact Hf |].
        intros Hi. exact (Ht Hi).
Qed.

(** The library accepts a model only when the mask has one entry per
    cell and the model one entry per active cell. *)
Lemma transform_inject_shapes (nC : nat) (active_cells : list bool)
    (v : float) (m full : list float) :
  transform np_exp (InjectActiveCells nC active_cells v) m = Some full ->
  length active_cells = nC /\ length m = nP active_cells /\ length full = nC.
Proof.
  cbn. destruct (decide (length active_cells = nC)) as [Hn |]; [| discriminate].
  intros H. destruct (inject_length _ _ _ _ H) as [Hl Hm].
  split; [exact Hn |]. split; [exact Hm | congruence].
Qed.

Lemma active_entries_fmap {A B : Type} (f : A -> B) (active_cells : list bool) :
  forall full : list A,
    active_entries active_cells (f <$> full) = f <$> active_entries active_cells full.
Proof.
  induction active_cells as [| b rest IH]; intros [| x full]; cbn;
    try reflexivity.
  destruct b; cbn; rewrite IH; reflexivity.
Qed.

(** C5: on a mask with one entry per cell and a model with one entry per
    active cell, the map of the simulation yields a vector with one entry
    per cell; its entries at the active cells are the model in order,
    each number [q] replaced by [np.exp(q)] when the model holds
    logarithms (nan stays nan); its entries at the inactive cells are all
    1e8. *)
Theorem resistivity_map_expands (log_model : bool) (nC : nat)
    (active_cells : list bool) (m : list float) :
  length active_cells = nC ->
  length m = nP active_cells ->
  exists full : list float,
    transform np_exp (resistivity_map log_model nC active_cells) m = Some full /\
    length full = nC /\
    active_entries active_cells full
      = (if log_model
         then (fun v => match v with
                        | Finite q => Finite (np_exp q)
                        | NaN => NaN
                        end) <$> m
         else m) /\
    (forall i : nat,
       active_cells !! i = Some false -> full !! i = Some (Finite 100000000)).
Proof.
  intros HnC Hm.
  set (m' := if log_model
             then (fun v => match v with
                            | Finite q => Finite (np_exp q)
                            | NaN => NaN
                            end) <$> m
             else m).
  assert (Hm' : length m' = nP active_cells).
  { unfold m'. destruct log_model; [rewrite length_fmap |]; exact Hm. }
  destruct (inject_total active_cells air_resistivity m' Hm') as [full Hfull].
  assert (Ht : transform np_exp (resistivity_map log_model nC active_cells) m
               = Some full).
  { unfold resistivity_map, m' in *. destruct log_model; cbn;
      (destruct (decide (length active_cells = nC)); [exact Hfull | contradiction]). }
  exists full. split; [exact Ht |].
  destruct (inject_length _ _ _ _ Hfull) as [Hl _].
  split; [congruence |].
  split; [exact (inject_active_entries _ _ _ _ Hfull) |].
  intros i Hi. exact (proj1 (inject_lookup _ _ _ _ i Hfull) Hi).
Qed.

(** C10: the map used for plotting fills with [np.nan].  Its output has
    one entry per cell, the model at the active cells in order and NaN at
    every inactive cell; NaN is not the 1e8 of the simulation's map, and
    the outputs of the two maps on one model differ at the inactive cells
    and nowhere else. *)
Theorem plotting_map_fills_nan (nC : nat) (active_cells : list bool)
    (m : list float) :
  length active_cells = nC ->
  length m = nP active_cells ->
  exists shown full : list float,
    transform np_exp (plotting_map nC active_cells) m = Some shown /\
    transform np_exp (resistivity_map false nC active_cells) m = Some full /\
    length shown = nC /\
    active_entries active_cells shown = m /\
    (forall i : nat, active_cells !! i = Some false -> shown !! i = Some NaN) /\
    NaN <> air_resistivity /\
    (forall i : nat, (i < nC)%nat ->
       shown !! i <> full !! i <-> active_cells !! i = Some false).
Proof.
  intros HnC Hm.
  destruct (inject_total active_cells NaN m Hm) as [shown Hshown].
  destruct (inject_total active_cells air_resistivity m Hm) as [full Hfull].
  exists shown, full.
  assert (Hdec : forall v, transform np_exp (InjectActiveCells nC active_cells v) m
                           = inject active_cells v m).
  { intros v. cbn.
    destruct (decide (length active_cells = nC)); [reflexivity | contradiction]. }
  split; [unfold plotting_map; rewrite Hdec; exact Hshown |].
  split; [unfold resistivity_map; rewrite Hdec; exact Hfull |].
  destruct (inject_length _ _ _ _ Hshown) as [Hl _].
  split; [congruence |].
  split; [exact (inject_active_entries _ _ _ _ Hshown) |].
  split; [intros i Hi; exact (proj1 (inject_lookup _ _ _ _ i Hshown) Hi) |].
  split; [discriminate |].
  intros i Hi.
  destruct (inject_lookup _ _ _ _ i Hshown) as [Hsf Hst].
  destruct (inject_lookup _ _ _ _ i Hfull) as [Hff Hft].
  destruct (active_cells !! i) as [[|] |] eqn:Ha.
  - destruct (Hst eq_refl) as [Hs _]. destruct (Hft eq_refl) as [Hf _].
    split; [| discriminate].
    intros Hne. exfalso. apply Hne. congruence.
  - rewrite (Hsf eq_refl), (Hff eq_refl).
    split; [reflexivity |]. intros _. discriminate.
  - exfalso. apply lookup_ge_None in Ha. lia.
Qed.

End MapsFacts.

Lemma resistivity_map_expands_witness :
  exists full : list Maps.float,
    Maps.transform (fun q => 1 + q * 2)%Q
      (Maps.resistivity_map true 4 [true; false; true; false])
      [Maps.Finite 0; Maps.Finite 3] = Some full /\
    length full = 4%nat /\
    Maps.active_entries [true; false; true; false] full
      = [Maps.Finite 1; Maps.Finite 7] /\
    (forall i : nat,
       [true; false; true; false] !! i = Some false ->
       full !! i = Some (Maps.Finite 100000000)).
Proof.
  apply (resistivity_map_expands (fun q => 1 + q * 2)%Q true 4
           [true; false; true; false]
           [Maps.Finite 0; Maps.Finite 3]); reflexivity.
Defined.

Lemma plotting_map_fills_nan_witness :
  exists shown full : list Maps.float,
    Maps.transform (fun q => q)
      (Maps.plotting_map 4 [true; false; true; false])
      [Maps.Finite 100; Maps.Finite 10] = Some shown /\
    Maps.transform (fun q => q)
      (Maps.resistivity_map false 4 [true; false; true; false])
      [Maps.Finite 100; Maps.Finite 10] = Some full /\
    length shown = 4%nat /\
    Maps.active_entries [true; false; true; false] shown
      = [Maps.Finite 100; Maps.Finite 10] /\
    (forall i : nat,
       [true; false; true; false] !! i = Some false -> shown !! i = Some Maps.NaN) /\
    Maps.NaN <> Maps.air_resistivity /\
    (forall i : nat, (i < 4)%nat ->
       shown !! i <> full !! i <-> [true; false; true; false] !! i = Some false).
Proof.
  apply (plotting_map_fills_nan (fun q => q) 4 [true; false; true; false]
           [Maps.Finite 100; Maps.Finite 10]); reflexivity.
Defined.

(** The two maps on a four-cell mesh with cells 0 and 2 in the ground. *)
Example maps_on_four_cells :
  Maps.transform (fun q => q) (Maps.plotting_map 4 [true; false; true; false])
    [Maps.Finite 100; Maps.Finite 10]
  = Some [Maps.Finite 100; Maps.NaN; Maps.Finite 10; Maps.NaN] /\
  Maps.transform (fun q => q)
    (Maps.resistivity_map false 4 [true; false; true; false])
    [Maps.Finite 100; Maps.Finite 10]
  = Some [Maps.Finite 100; Maps.Finite 100000000; Maps.Finite 10;
          Maps.Finite 100000000] /\
  Maps.transform (fun q => q) (Maps.plotting_map 4 [true; false; true; false])
    [Maps.Finite 100] = None /\
  Maps.transform (fun q => 1 + q * 2)%Q
    (Maps.resistivity_map true 4 [true; false; true; false])
    [Maps.Finite 0; Maps.NaN]
  = Some [Maps.Finite 1; Maps.Finite 100000000; Maps.NaN;
          Maps.Finite 100000000].
Proof. repeat split; reflexivity. Qed.


(** * Facts about the apparent-resistivity cell *)
Section PostProcessingFacts.

Import Maps PostProcessing.
Local Open Scope string_scope.

Variable apparent_resistivity_from_voltage :
  Survey -> list float -> option (list float).
Variable plot_pseudosection : Survey -> list float -> option unit.

Local Abbreviation draw := (pseudosection plot_pseudosection).
Local Abbreviation cell :=
  (postprocess_cell apparent_resistivity_from_voltage plot_pseudosection).
Local Abbreviation output :=
  (apparent_resistivity apparent_resistivity_from_voltage plot_pseudosection).
Local Abbreviation result :=
  (postprocess apparent_resistivity_from_voltage plot_pseudosection).

(** Drawing a pseudo-section reads the survey and the data, hands them to
    the plotting routine, and binds [fig] and [ax1] and nothing else. *)
Lemma pseudosection_spec (title dobs_name : string) (f : float -> float)
    (ns ns' : namespace) :
  dobs_name <> "fig" -> dobs_name <> "ax1" ->
  draw title dobs_name f ns = Some ns' <->
  exists (s : Survey) (dobs : list float),
    get_survey ns "survey" = Some s /\
    get_array ns dobs_name = Some dobs /\
    plot_pseudosection s (f <$> dobs) = Some tt /\
    ns' = <["ax1" := PAxes title (f <$> dobs)]>
            (<["ax1" := PAxes "" []]> (<["fig" := PFigure]> ns)).
Proof.
  intros Hfig Hax. unfold pseudosection, get_survey, get_array. cbv zeta.
  rewrite !lookup_insert_ne by (congruence || discriminate).
  split.
  - intros H.
    apply bind_Some in H as (s & Hs & H).
    apply bind_Some in H as (dobs & Hd & H).
    apply bind_Some in H as ([] & Hp & H).
    inversion H; subst ns'. exists s, dobs.
    destruct (ns !! "survey") as [[] |]; try discriminate.
    destruct (ns !! dobs_name) as [[] |]; try discriminate.
    inversion Hs; inversion Hd; subst. auto.
  - intros (s & dobs & Hs & Hd & Hp & ->).
    rewrite Hs. cbn. rewrite Hd. cbn. rewrite Hp. reflexivity.
Qed.

Lemma pseudosection_other (title dobs_name : string) (f : float -> float)
    (ns ns' : namespace) (name : string) :
  draw title dobs_name f ns = Some ns' ->
  name <> "fig" -> name <> "ax1" ->
  ns' !! name = ns !! name.
Proof.
  unfold pseudosection. cbv zeta. intros H Hfig Hax.
  apply bind_Some in H as (s & _ & H).
  apply bind_Some in H as (dobs & _ & H).
  apply bind_Some in H as (u & _ & H).
  inversion H; subst ns'.
  rewrite !lookup_insert_ne by congruence. reflexivity.
Qed.

Lemma get_array_insert (ns : namespace) (name : string) (a : list float) :
  get_array (<[name := PArray a]> ns) name = Some a.
Proof. unfold get_array. rewrite lookup_insert_eq. reflexivity. Qed.

(** What a run of the cell reads, computes and binds. *)
Lemma cell_run (ns ns' : namespace) :
  cell ns = Some ns' ->
  exists (data_type : pyobj) (survey : Survey) (dpred rho : list float),
    ns !! "data_type" = Some data_type /\
    get_survey ns "survey" = Some survey /\
    get_array ns "dpred" = Some dpred /\
    result data_type survey dpred = Some rho /\
    get_array ns' "apparent_resistivity" = Some rho /\
    (forall name : string,
       name <> "fig" -> name <> "ax1" -> name <> "apparent_resistivity" ->
       ns' !! name = ns !! name).
Proof.
  unfold postprocess_cell, postprocess. intros H.
  apply bind_Some in H as (dt & Hdt & H).
  apply bind_Some in H as (ns1 & H1 & H2).
  exists dt.
  apply pseudosection_spec in H2 as (s2 & rho & Hs2 & Hrho & Hplot2 & ->);
    [| discriminate | discriminate].
  rewrite list_fmap_id in Hplot2.
  destruct (is_volt dt).
  - apply bind_Some in H1 as (ns0 & H0 & H1).
    apply bind_Some in H1 as (s & Hs & H1).
    apply bind_Some in H1 as (d & Hd & H1).
    apply bind_Some in H1 as (rho' & Hrho' & H1).
    inversion H1; subst ns1. clear H1.
    rewrite get_array_insert in Hrho. inversion Hrho; subst rho'. clear Hrho.
    pose proof (pseudosection_other _ _ _ _ _ "survey" H0
                  ltac:(discriminate) ltac:(discriminate)) as Hks.
    pose proof (pseudosection_other _ _ _ _ _ "dpred" H0
                  ltac:(discriminate) ltac:(discriminate)) as Hkd.
    pose proof H0 as Hdrawn.
    apply pseudosection_spec in H0 as (s0 & d0 & Hs0 & Hd0 & Hplot0 & _);
      [| discriminate | discriminate].
    unfold get_survey, get_array in *.
    rewrite lookup_insert_ne in Hs2 by discriminate.
    rewrite Hks in Hs, Hs2. rewrite Hkd in Hd.
    assert (s0 = s) by congruence. assert (d0 = d) by congruence.
    assert (s2 = s) by congruence. subst s0 d0 s2.
    exists s, d, rho.
    split; [exact Hdt |]. split; [exact Hs |]. split; [exact Hd |].
    split; [rewrite Hplot0; cbn; rewrite Hrho'; cbn; rewrite Hplot2; reflexivity |].
    split.
    + rewrite !lookup_insert_ne by discriminate.
      rewrite lookup_insert_eq. reflexivity.
    + intros name Hf Ha Hr.
      rewrite !lookup_insert_ne by congruence.
      exact (pseudosection_other _ _ _ _ _ name Hdrawn Hf Ha).
  - apply bind_Some in H1 as (d & Hd & H1).
    inversion H1; subst ns1. clear H1.
    rewrite get_array_insert in Hrho. inversion Hrho; subst rho. clear Hrho.
    unfold get_survey in Hs2.
    rewrite lookup_insert_ne in Hs2 by discriminate.
    exists s2, d, d.
    split; [exact Hdt |]. split; [exact Hs2 |]. split; [exact Hd |].
    split; [rewrite Hplot2; reflexivity |].
    split.
    + unfold get_array. rewrite !lookup_insert_ne by discriminate.
      rewrite lookup_insert_eq. reflexivity.
    + intros name Hf Ha Hr.
      rewrite !lookup_insert_ne by congruence. reflexivity.
Qed.



End PostProcessingFacts.

(** Runs with the plotting routine that takes one entry per datum: on
    the survey of three data the cell leaves the absolute values of the
    three voltages, whichever other globals are bound; on data that do not
    match the survey it raises. *)
Example postprocess_on_sample :
  PostProcessing.apparent_resistivity PostProcessing.unit_geometry
    PostProcessing.plot_per_datum PostProcessing.small_namespace
  = Some [Maps.Finite (1 # 2); Maps.Finite (1 # 4); Maps.Finite (1 # 2)] /\
  PostProcessing.apparent_resistivity PostProcessing.unit_geometry
    PostProcessing.plot_per_datum PostProcessing.small_namespace_later
  = Some [Maps.Finite (1 # 2); Maps.Finite (1 # 4); Maps.Finite (1 # 2)] /\
  PostProcessing.apparent_resistivity PostProcessing.unit_geometry
    PostProcessing.plot_per_datum PostProcessing.sample_namespace
  = None.
Proof. repeat split; vm_compute; reflexivity. Qed.


(** * Further facts about the mesh cells *)
Section MeshMore.

Import Float64 Mesh.
Local Open Scope Q_scope.

(** ** The refinement cell *)

Lemma mask_rows_total {A : Type} (mask : list bool) :
  forall a : list A,
    length mask = length a -> exists w, mask_rows mask a = Some w.
Proof.
  induction mask as [| b mask IH]; intros [| r a] Hlen; try discriminate.
  - exists []. reflexivity.
  - destruct (IH a) as [w Hw]; [cbn in Hlen; lia |].
    cbn. rewrite Hw. cbn. eexists. reflexivity.
Qed.

Lemma mask_rows_sublist {A : Type} (mask : list bool) :
  forall a w : list A,
    mask_rows mask a = Some w ->
    sublist w a /\ length w = length (List.filter (fun b : bool => b) mask).
Proof.
  induction mask as [| b mask IH]; intros [| r a] w H; cbn in H;
    try discriminate.
  - inversion H. split; [constructor | reflexivity].
  - apply bind_Some in H as (rest & Hrest & H).
    destruct (IH _ _ Hrest) as [Hsub Hlen].
    inversion H; subst w. destruct b; cbn.
    + split; [constructor; exact Hsub | f_equal; exact Hlen].
    + split; [constructor; exact Hsub | exact Hlen].
Qed.

Lemma filter_fmap_length {A : Type} (f : A -> bool) (l : list A) :
  length (List.filter (fun b : bool => b) (f <$> l)) = length (List.filter f l).
Proof.
  induction l as [| x l IH]; [reflexivity |].
  cbn. destruct (f x); cbn; rewrite IH; reflexivity.
Qed.

(** The surface handed to [refine_surface] is made of rows of [topo_2d]
    in their original order, none repeated, as many as there are entries
    of [x_topo] inside the window; the points handed to [refine_points]
    are the electrode locations as they are. *)
Theorem refine_cell_window (unique_locations topo_2d : list point)
    (x_topo : list Q) (mesh mesh' : TreeMesh) :
  refine_cell unique_locations topo_2d x_topo mesh = Some mesh' ->
  exists window : list point,
    refinements mesh' =
      refinements mesh ++ [ByPoints unique_locations points_padding;
                           BySurface window surface_padding] /\
    sublist window topo_2d /\
    length window = length (List.filter in_window x_topo) /\
    length x_topo = length topo_2d /\
    geometry mesh' = (h mesh, origin mesh, refinements mesh') /\
    finalized mesh' = false.
Proof.
  intros H.
  destruct (refine_cell_spec _ _ _ _ _ H)
    as (window & Hw & _ & Hf & Hh & Ho & Hr & _).
  exists window.
  destruct (mask_rows_sublist _ _ _ Hw) as [Hsub Hlen].
  split; [exact Hr |]. split; [exact Hsub |].
  split; [rewrite Hlen; apply filter_fmap_length |].
  split.
  { apply mask_rows_length in Hw. rewrite length_fmap in Hw. exact Hw. }
  split; [unfold geometry; rewrite Hh, Ho; reflexivity | exact Hf].
Qed.

Lemma refine_cell_window_witness :
  exists (mesh' : TreeMesh) (window : list point),
    refinements mesh' =
      [ByPoints [(-65, 0); (65, 8)] points_padding;
       BySurface window surface_padding] /\
    sublist window [(-200, 0); (0, 4); (200, 8)] /\
    length window = length (List.filter in_window [-200; 0; 200]) /\
    length [-200; 0; 200] = length [(-200, 0); (0, 4); (200, 8)] /\
    geometry mesh' = ((1, 256, (1, 128)), (Fnum (-128), Fnum (-120)),
                      refinements mesh') /\
    finalized mesh' = false.
Proof.
  eexists.
  apply (refine_cell_window [(-65, 0); (65, 8)] [(-200, 0); (0, 4); (200, 8)]
           [-200; 0; 200]
           {| h := ((1, 256), (1, 128)); origin := (Fnum (-128), Fnum (-120));
              refinements := []; finalized := false; calls := [] |}).
  reflexivity.
Defined.

(** ** The cells in sequence *)

(** The mesh at the end of the cells is the base mesh with the two
    requests added and the seal set: refinement, finalize and the later
    cells move neither its origin nor its base grid. *)
Theorem mesh_pipeline_result (A : arithmetic) (dh dom_width_x dom_width_y : Q)
    (topo_2d : list point) (x_topo end_locations : list Q)
    (unique_locations : list point) (m : TreeMesh) :
  mesh_pipeline A dh dom_width_x dom_width_y topo_2d x_topo end_locations
    unique_locations = Some m ->
  exists (base : TreeMesh) (window : list point),
    base_mesh_cell A dh dom_width_x dom_width_y topo_2d end_locations
      = Some base /\
    h m = h base /\ origin m = origin base /\
    refinements m = [ByPoints unique_locations points_padding;
                     BySurface window surface_padding] /\
    sublist window topo_2d /\
    length x_topo = length topo_2d /\
    finalized base = false /\ finalized m = true.
Proof.
  unfold mesh_pipeline. intros H.
  apply bind_Some in H as (base & Hbase & H).
  apply bind_Some in H as (refined & Href & H).
  apply bind_Some in H as (frozen & Hfrozen & H).
  unfold finalize_cell in Hfrozen.
  inversion Hfrozen; subst frozen. inversion H; subst m. clear H Hfrozen.
  destruct (base_mesh_fresh _ _ _ _ _ _ _ Hbase) as (Hf0 & Hr0 & _).
  destruct (refine_cell_spec _ _ _ _ _ Href)
    as (window & Hw & _ & _ & Hh & Ho & Hr & _).
  destruct (later_reads_spec later_uses (finalize refined)) as (Hg & Hf & _).
  fold (later_cells (finalize refined)) in Hg, Hf.
  assert (Hh' : h (later_cells (finalize refined)) = h refined).
  { apply (f_equal (fun g => g.1.1)) in Hg. exact Hg. }
  assert (Ho' : origin (later_cells (finalize refined)) = origin refined).
  { apply (f_equal (fun g => g.1.2)) in Hg. exact Hg. }
  assert (Hr' : refinements (later_cells (finalize refined)) = refinements refined).
  { apply (f_equal (fun g => g.2)) in Hg. exact Hg. }
  exists base, window.
  split; [exact Hbase |].
  split; [congruence |]. split; [congruence |].
  split; [rewrite Hr', Hr, Hr0; reflexivity |].
  split; [exact (proj1 (mask_rows_sublist _ _ _ Hw)) |].
  split.
  { apply mask_rows_length in Hw. rewrite length_fmap in Hw. exact Hw. }
  split; [exact Hf0 | rewrite Hf; reflexivity].
Qed.

Lemma mesh_pipeline_result_witness :
  exists (m base : TreeMesh) (window : list point),
    base_mesh_cell sample_arithmetic 1 256 128
      [(-200, 0); (0, 4); (200, 8)] [-65; 65] = Some base /\
    h m = h base /\ origin m = origin base /\
    refinements m = [ByPoints [(-65, 0); (65, 8)] points_padding;
                     BySurface window surface_padding] /\
    sublist window [(-200, 0); (0, 4); (200, 8)] /\
    length [-200; 0; 200] = length [(-200, 0); (0, 4); (200, 8)] /\
    finalized base = false /\ finalized m = true.
Proof.
  eexists.
  apply (mesh_pipeline_result sample_arithmetic 1 256 128
           [(-200, 0); (0, 4); (200, 8)]
           [-200; 0; 200] [-65; 65] [(-65, 0); (65, 8)]).
  vm_compute. reflexivity.
Defined.

(** A run of the mesh cells on a three-point profile: the mesh is 256 by
    128 cells, its origin is moved by the mean of the end locations and
    the highest elevation, and the window keeps the one sample inside
    it.  With no end locations the mean is nan, the cells run all the
    same and the origin is nan along x. *)
Example mesh_pipeline_on_sample :
  geometry <$> mesh_pipeline sample_arithmetic 1 256 128
                 [(-200, 0); (0, 4); (200, 8)]
                 [-200; 0; 200] [-65; 65] [(-65, 0); (65, 8)]
  = Some ((1, 256, (1, 128)), (Fnum (-128), Fnum (-120)),
          [ByPoints [(-65, 0); (65, 8)] points_padding;
           BySurface [(0, 4)] surface_padding]) /\
  (origin <$> mesh_pipeline sample_arithmetic 1 256 128
                [(-200, 0); (0, 4); (200, 8)]
                [-200; 0; 200] [] [(-65, 0); (65, 8)])
  = Some (Fnan, Fnum (-120)).
Proof. split; vm_compute; reflexivity. Qed.

End MeshMore.


(** * Further facts about the apparent-resistivity cell *)
Section PostProcessingMore.

Import Maps PostProcessing.
Local Open Scope string_scope.

Variable apparent_resistivity_from_voltage :
  Survey -> list float -> option (list float).
Variable plot_pseudosection : Survey -> list float -> option unit.

(** What the cell leaves behind: the vector under [apparent_resistivity],
    a figure under [fig], and under [ax1] the axes titled "Apparent
    Resistivity" that show that same vector.  Every other global is as
    it was. *)
Theorem postprocess_cell_binds (ns ns' : namespace) :
  postprocess_cell apparent_resistivity_from_voltage plot_pseudosection ns
    = Some ns' ->
  exists rho : list float,
    ns' !! "apparent_resistivity" = Some (PArray rho) /\
    ns' !! "ax1" = Some (PAxes "Apparent Resistivity" rho) /\
    ns' !! "fig" = Some PFigure /\
    (forall name : string,
       name <> "fig" -> name <> "ax1" -> name <> "apparent_resistivity" ->
       ns' !! name = ns !! name).
Proof.
  intros Hcell.
  destruct (cell_run _ _ _ _ Hcell)
    as (_ & _ & _ & rho & _ & _ & _ & _ & Hrho & Hframe).
  exists rho.
  unfold postprocess_cell in Hcell.
  apply bind_Some in Hcell as (dt & _ & Hcell).
  apply bind_Some in Hcell as (ns1 & _ & Hlast).
  apply pseudosection_spec in Hlast as (s & dobs & _ & Hdobs & _ & ->);
    [| discriminate | discriminate].
  unfold get_array in Hrho.
  rewrite !lookup_insert_ne in Hrho by discriminate.
  assert (Hstored : ns1 !! "apparent_resistivity" = Some (PArray rho)).
  { destruct (ns1 !! "apparent_resistivity") as [[] |]; try discriminate.
    congruence. }
  unfold get_array in Hdobs. rewrite Hstored in Hdobs.
  inversion Hdobs; subst dobs.
  split.
  { rewrite !lookup_insert_ne by discriminate. exact Hstored. }
  split.
  { rewrite lookup_insert_eq, list_fmap_id. reflexivity. }
  split.
  { rewrite !lookup_insert_ne by discriminate.
    rewrite lookup_insert_eq. reflexivity. }
  exact Hframe.
Qed.

End PostProcessingMore.

Lemma postprocess_cell_binds_witness :
  exists (ns' : gmap string PostProcessing.pyobj) (rho : list Maps.float),
    ns' !! "apparent_resistivity"%string = Some (PostProcessing.PArray rho) /\
    ns' !! "ax1"%string
      = Some (PostProcessing.PAxes "Apparent Resistivity" rho) /\
    ns' !! "fig"%string = Some PostProcessing.PFigure /\
    (forall name : string,
       name <> "fig"%string -> name <> "ax1"%string ->
       name <> "apparent_resistivity"%string ->
       ns' !! name = PostProcessing.small_namespace !! name).
Proof.
  eexists.
  apply (postprocess_cell_binds PostProcessing.unit_geometry
           PostProcessing.plot_per_datum PostProcessing.small_namespace).
  vm_compute. reflexivity.
Defined.

(** When [data_type] is bound to anything but the string "volt", the
    utility plays no part in the run, and the vector left in
    [apparent_resistivity] is [dpred] itself. *)
Theorem non_volt_passes_data (data_type : PostProcessing.pyobj)
    (ns : gmap string PostProcessing.pyobj) :
  ns !! "data_type"%string = Some data_type ->
  PostProcessing.is_volt data_type = false ->
  (forall (plot : PostProcessing.Survey -> list Maps.float -> option unit)
          (f g : PostProcessing.Survey -> list Maps.float -> option (list Maps.float)),
     PostProcessing.postprocess_cell f plot ns
     = PostProcessing.postprocess_cell g plot ns) /\
  (forall (plot : PostProcessing.Survey -> list Maps.float -> option unit)
          (f : PostProcessing.Survey -> list Maps.float -> option (list Maps.float))
          (ns' : gmap string PostProcessing.pyobj),
     PostProcessing.postprocess_cell f plot ns = Some ns' ->
     exists dpred : list Maps.float,
       PostProcessing.get_array ns "dpred" = Some dpred /\
       PostProcessing.get_array ns' "apparent_resistivity" = Some dpred).
Proof.
  intros Hdt Hv. split.
  - intros plot f g. unfold PostProcessing.postprocess_cell.
    rewrite Hdt. cbn. rewrite Hv. reflexivity.
  - intros plot f ns' Hcell.
    destruct (cell_run f plot _ _ Hcell)
      as (dt & s & d & rho & Hdt' & _ & Hd & Hp & Hrho & _).
    assert (dt = data_type) by congruence. subst dt.
    unfold PostProcessing.postprocess in Hp. rewrite Hv in Hp.
    apply bind_Some in Hp as (u & _ & Hp).
    inversion Hp; subst rho.
    exists d. auto.
Qed.

Lemma non_volt_passes_data_witness :
  (forall (plot : PostProcessing.Survey -> list Maps.float -> option unit)
          (f g : PostProcessing.Survey -> list Maps.float -> option (list Maps.float)),
     PostProcessing.postprocess_cell f plot
       PostProcessing.small_namespace_resistivity
     = PostProcessing.postprocess_cell g plot
         PostProcessing.small_namespace_resistivity) /\
  (forall (plot : PostProcessing.Survey -> list Maps.float -> option unit)
          (f : PostProcessing.Survey -> list Maps.float -> option (list Maps.float))
          (ns' : gmap string PostProcessing.pyobj),
     PostProcessing.postprocess_cell f plot
       PostProcessing.small_namespace_resistivity = Some ns' ->
     exists dpred : list Maps.float,
       PostProcessing.get_array PostProcessing.small_namespace_resistivity
         "dpred" = Some dpred /\
       PostProcessing.get_array ns' "apparent_resistivity" = Some dpred).
Proof.
  apply (non_volt_passes_data (PostProcessing.PStr "apparent_resistivity")
           PostProcessing.small_namespace_resistivity);
    reflexivity.
Defined.




(** * Further facts about the plotting map *)
Section MapsMore.

Import Maps.

Variable np_exp : Q -> Q.

(** In the vector that [mesh.plot_image] receives, the cells left blank
    are the air cells and no others: for a model without NaN entries, an
    entry of [plotting_map * resistivity_model] is NaN exactly at the
    inactive cells. *)
Theorem plotting_map_masks_air (nC : nat) (active_cells : list bool)
    (m : list float) :
  length active_cells = nC ->
  length m = nP active_cells ->
  NaN ∉ m ->
  exists shown : list float,
    transform np_exp (plotting_map nC active_cells) m = Some shown /\
    (forall i : nat,
       shown !! i = Some NaN <-> active_cells !! i = Some false).
Proof.
  intros HnC Hm Hnan.
  destruct (inject_total active_cells NaN m Hm) as [shown Hshown].
  exists shown. split.
  { unfold plotting_map. cbn.
    destruct (decide (length active_cells = nC)); [exact Hshown | contradiction]. }
  intros i.
  destruct (inject_lookup _ _ _ _ i Hshown) as [Hf Ht].
  destruct (inject_length _ _ _ _ Hshown) as [Hlen _].
  destruct (active_cells !! i) as [[|] |] eqn:Ha.
  - destruct (Ht eq_refl) as [Hs _].
    split; [| discriminate].
    intros Hi. exfalso. apply Hnan.
    rewrite Hs in Hi. apply list_elem_of_lookup. eauto.
  - split; [reflexivity |]. intros _. exact (Hf eq_refl).
  - split; [| discriminate].
    intros Hi. exfalso.
    apply lookup_ge_None in Ha.
    apply lookup_lt_Some in Hi. lia.
Qed.

(** The product [plotting_map * resistivity_model] is refused in two
    cases only: the mask does not have one entry per cell, or the model
    does not have one entry per active cell. *)
Theorem plotting_map_fails (nC : nat) (active_cells : list bool)
    (m : list float) :
  transform np_exp (plotting_map nC active_cells) m = None <->
  length active_cells <> nC \/ length m <> nP active_cells.
Proof.
  unfold plotting_map. cbn.
  destruct (decide (length active_cells = nC)) as [Hn | Hn].
  - split.
    + intros Hnone. right. intros Hm.
      destruct (inject_total active_cells NaN m Hm) as [full Hfull]. congruence.
    + intros [H | H]; [contradiction |].
      destruct (inject active_cells NaN m) as [full |] eqn:E; [| reflexivity].
      destruct (inject_length _ _ _ _ E) as [_ Hm]. contradiction.
  - split; [auto | reflexivity].
Qed.

End MapsMore.

Lemma plotting_map_masks_air_witness :
  exists shown : list Maps.float,
    Maps.transform (fun q => q) (Maps.plotting_map 4 [true; false; true; false])
      [Maps.Finite 100; Maps.Finite 10] = Some shown /\
    (forall i : nat,
       shown !! i = Some Maps.NaN <->
       [true; false; true; false] !! i = Some false).
Proof.
  apply (plotting_map_masks_air (fun q => q) 4 [true; false; true; false]
           [Maps.Finite 100; Maps.Finite 10]); [reflexivity | reflexivity |].
  intros H. apply list_elem_of_In in H. cbn in H.
  destruct H as [H | [H | []]]; discriminate.
Defined.

